(** * rhlatex server: the count-then-echo program of [server/src/main.cpp]

    The program is one sequential thread that talks to its environment:
    it writes to [std::cout], reads from [std::cin], suspends itself with
    [std::this_thread::sleep_for], and never leaves its last loop.  It is
    embedded as an interaction tree over these events and executed, a
    bounded number of steps at a time, against an explicit model of the
    two streams.  The streams follow the C++ standard's description of
    [std::basic_istream] and [std::basic_ostream]. *)

From Stdlib Require Import ZArith Ascii String DecimalString Bool Lia List.
From ITree Require Import ITree.
Import ListNotations.
Import ITreeNotations.
Local Open Scope itree_scope.
Local Open Scope Z_scope.

(** ** Values *)

(** A [char] object.  [char a;] at block scope has no initializer, so
    until the first store the object holds an indeterminate value. *)
Inductive cchar : Type :=
| Indeterminate
| Char (c : ascii).

(** What has been written on one line of standard output. *)
Definition line : Type := list cchar.

Definition chars (s : string) : list ascii := list_ascii_of_string s.

Definition text (s : string) : line := map Char (chars s).

(** ** Standard input: [std::istream] *)

(** [buf] is what can still be read.  [closed] tells what lies behind it:
    end-of-file when [true], nothing yet (a read there blocks the thread)
    when [false].  The three booleans are the stream's [iostate]. *)
Record istream : Type := mk_istream {
  buf : list ascii;
  closed : bool;
  eofbit : bool;
  failbit : bool;
  badbit : bool
}.

(** [std::ios::good()]: no state bit is set. *)
Definition good (s : istream) : bool :=
  negb (eofbit s) && negb (failbit s) && negb (badbit s).

(** [std::isspace] in the "C" locale: space, \t, \n, \v, \f, \r. *)
Definition isspace (c : ascii) : bool :=
  let n := nat_of_ascii c in
  (Nat.eqb n 32 || (Nat.leb 9 n && Nat.leb n 13))%bool.

Definition nonspace (c : ascii) : bool := negb (isspace c).

(** The sentry of a formatted input function, [skipws] being set:
    leading white space is discarded. *)
Fixpoint skipws (l : list ascii) : list ascii :=
  match l with
  | [] => []
  | c :: l' => if isspace c then skipws l' else l
  end.

(** Result of [operator>>(std::istream&, char&)]. *)
Inductive extraction : Type :=
| Got (c : ascii) (s : istream)   (* a character was stored *)
| Failed (s : istream)            (* nothing was stored *)
| Blocks (s : istream).           (* the call does not return *)

(** The sentry sets [failbit] on a stream that is not good and reads
    nothing.  Otherwise white space is skipped and the next character is
    taken; at end-of-file [eofbit] and [failbit] are set. *)
Definition extract (s : istream) : extraction :=
  if good s then
    match skipws (buf s) with
    | c :: rest =>
        Got c (mk_istream rest (closed s) (eofbit s) (failbit s) (badbit s))
    | [] =>
        if closed s
        then Failed (mk_istream [] true true true (badbit s))
        else Blocks (mk_istream [] false (eofbit s) (failbit s) (badbit s))
    end
  else Failed (mk_istream (buf s) (closed s) (eofbit s) true (badbit s)).

(** What a call that returns has answered, and the stream it has left. *)
Definition returned (x : extraction) : option (option ascii * istream) :=
  match x with
  | Got c s => Some (Some c, s)
  | Failed s => Some (None, s)
  | Blocks _ => None
  end.

(** A stream in good state is its buffer and its end. *)
Definition fresh (l : list ascii) (cl : bool) : istream :=
  mk_istream l cl false false false.

(** A stream that has been read to its end. *)
Definition at_eof : istream := mk_istream [] true true true false.

(** A stream on which no read can block: closed, or not good. *)
Definition ends (s : istream) : Prop := closed s = true \/ good s = false.

(** The characters a stream still has to give. *)
Definition readable (s : istream) : list ascii :=
  if good s then filter nonspace (buf s) else [].

(** ** Standard output: [std::ostream] *)

(** [lines] are the lines completed by [std::endl], oldest first;
    [pending] is the line being written. *)
Record ostream : Type := mk_ostream {
  lines : list line;
  pending : line
}.

Definition put (l : line) (o : ostream) : ostream :=
  mk_ostream (lines o) (pending o ++ l).

Definition endl (o : ostream) : ostream :=
  mk_ostream (lines o ++ [pending o]) [].

(** [operator<<(int)]: decimal digits, with a sign when negative. *)
Definition show_int (i : Z) : string := NilZero.string_of_int (Z.to_int i).

(** ** The environment of the process *)

Record world : Type := mk_world {
  cin : istream;
  cout : ostream;
  asleep : Z     (* seconds spent suspended in [sleep_for] so far *)
}.

(** ** Events *)

Variant stdE : Type -> Type :=
| CoutInt (i : Z) : stdE unit            (* std::cout << i *)
| CoutStr (s : string) : stdE unit       (* std::cout << "..." *)
| CoutChar (c : cchar) : stdE unit       (* std::cout << a *)
| CoutEndl : stdE unit                   (* std::cout << std::endl *)
| CinChar : stdE (option ascii)          (* std::cin >> a *)
| SleepFor (seconds : Z) : stdE unit.    (* std::this_thread::sleep_for *)

(** What an event does to the world, and what it answers; [inr] when the
    call does not return.  A duration that is not positive suspends for
    no time. *)
Definition handle {T : Type} (e : stdE T) (w : world) : (T * world) + world :=
  match e in stdE T return (T * world) + world with
  | CoutInt i => inl (tt, mk_world (cin w) (put (text (show_int i)) (cout w)) (asleep w))
  | CoutStr s => inl (tt, mk_world (cin w) (put (text s) (cout w)) (asleep w))
  | CoutChar c => inl (tt, mk_world (cin w) (put [c] (cout w)) (asleep w))
  | CoutEndl => inl (tt, mk_world (cin w) (endl (cout w)) (asleep w))
  | CinChar =>
      match extract (cin w) with
      | Got c s => inl (Some c, mk_world s (cout w) (asleep w))
      | Failed s => inl (None, mk_world s (cout w) (asleep w))
      | Blocks s => inr (mk_world s (cout w) (asleep w))
      end
  | SleepFor n => inl (tt, mk_world (cin w) (cout w) (asleep w + Z.max 0 n))
  end.

(** ** The program *)

(** [inline void sleep( int seconds )] *)
Definition sleep (seconds : Z) : itree stdE unit :=
  ITree.trigger (SleepFor seconds).

(** [for ( int i = 0 ; i < 5; ++i ) { std::cout << i << std::endl; sleep(1); }] *)
Definition startup : itree stdE unit :=
  ITree.iter (fun i : Z =>
    if i <? 5 then
      ITree.trigger (CoutInt i) ;;
      ITree.trigger CoutEndl ;;
      sleep 1 ;;
      Ret (inl (i + 1))
    else Ret (inr tt)) 0.

(** [std::cin >> a;]: the object is written only when a character was
    extracted. *)
Definition store (a : cchar) (r : option ascii) : cchar :=
  match r with
  | Some c => Char c
  | None => a
  end.

(** [while (true) { std::cin >> a; std::cout << "a = " << a << std::endl; }]
    The loop has no exit: its body always asks for another turn. *)
Definition echo (a : cchar) : itree stdE unit :=
  ITree.iter (fun a : cchar =>
    r <- ITree.trigger CinChar ;;
    let a := store a r in
    ITree.trigger (CoutStr "a = ") ;;
    ITree.trigger (CoutChar a) ;;
    ITree.trigger CoutEndl ;;
    Ret (inl a)) a.

(** [int main(int argc, const char *argv[])]: the two loops, then
    [return 0;].  [char a;] enters the second loop indeterminate. *)
Definition main (argc : Z) (argv : list string) : itree stdE Z :=
  startup ;;
  echo Indeterminate ;;
  Ret 0.

(** ** Execution *)

(** Where a run of the process stands. *)
Inductive outcome (R : Type) : Type :=
| Exited (r : R) (w : world) (left : nat)   (* returned [r], [left] steps unused *)
| Waiting (w : world)                       (* suspended in a read *)
| Running (w : world).                      (* still executing *)
Arguments Exited {R} r w left.
Arguments Waiting {R} w.
Arguments Running {R} w.

Definition world_of {R : Type} (o : outcome R) : world :=
  match o with
  | Exited _ w _ => w
  | Waiting w => w
  | Running w => w
  end.

Definition exited {R : Type} (o : outcome R) : bool :=
  match o with
  | Exited _ _ _ => true
  | _ => false
  end.

Definition running {R : Type} (o : outcome R) : bool :=
  match o with
  | Running _ => true
  | _ => false
  end.

(** [run n t w] executes at most [n] steps of [t] from [w]; an event or a
    turn of a loop is one step. *)
Fixpoint run {R : Type} (n : nat) (t : itree stdE R) (w : world) : outcome R :=
  match n with
  | O => Running w
  | S n' =>
      match observe t with
      | RetF r => Exited r w n
      | TauF t' => run n' t' w
      | VisF e k =>
          match handle e w with
          | inl (x, w') => run n' (k x) w'
          | inr w' => Waiting w'
          end
      end
  end.

(** The outcome of [main] in terms of that of its echo loop; the loop
    would have to return for [main] to. *)
Definition of_echo (o : outcome unit) : outcome Z :=
  match o with
  | Exited _ w m => run m (Ret 0) w
  | Waiting w => Waiting w
  | Running w => Running w
  end.

(** A world whose output has no unfinished line. *)
Definition at_bol (s : istream) (ls : list line) (t : Z) : world :=
  mk_world s (mk_ostream ls []) t.

(** The process at start: nothing written, [std::cin] in good state. *)
Definition boot (input : list ascii) (closed : bool) : world :=
  mk_world (mk_istream input closed false false false) (mk_ostream [] []) 0.

(** The same, with [std::cin] in any state. *)
Definition start (s : istream) : world :=
  mk_world s (mk_ostream [] []) 0.

(** The lines standard output has received. *)
Definition stdout {R : Type} (o : outcome R) : list line :=
  lines (cout (world_of o)).

(** ** The lines the program writes *)

Definition startup_lines : list line :=
  [text "0"; text "1"; text "2"; text "3"; text "4"].

Definition echo_line (a : cchar) : line := text "a = " ++ [a].

Definition is_echo (l : line) : Prop := exists a, l = echo_line a.

Definition echoes (cs : list ascii) : list line :=
  map (fun c => echo_line (Char c)) cs.

(** The echo lines are what follows the five lines of the count. *)
Definition echoed (w : world) : list line := skipn 5 (lines (cout w)).

(** ** Tokens *)

(** The white-space-delimited tokens of an input, in the words of the
    specification: the maximal runs of characters other than white space.
    [cur] is the token being read, its last character first. *)
Fixpoint tokens_from (cur inp : list ascii) : list (list ascii) :=
  match inp with
  | [] =>
      match cur with
      | [] => []
      | _ :: _ => [rev cur]
      end
  | c :: rest =>
      if isspace c then
        match cur with
        | [] => tokens_from [] rest
        | _ :: _ => rev cur :: tokens_from [] rest
        end
      else tokens_from (c :: cur) rest
  end.

Definition tokens (inp : list ascii) : list (list ascii) := tokens_from [] inp.

(** The specification's echo: one line for a token, of its first
    character. *)
Definition token_echo (tok : list ascii) : list line :=
  match tok with
  | [] => []
  | c :: _ => [echo_line (Char c)]
  end.

(** The specification's reading of the echo loop: when the process has
    used up what it was given and waits for more, it has written one echo
    line for each token. *)
Definition one_echo_per_token (inp : list ascii) : Prop :=
  forall argc argv n w,
    run n (main argc argv) (boot inp false) = Waiting w ->
    echoed w = flat_map token_echo (tokens inp).

(** ** The output as a function of the input *)

(** A stream on which no read can block, as a boolean. *)
Definition spins (s : istream) : bool := closed s || negb (good s).

(** The first [k] echo lines of a process whose stream still has the
    characters [cs] to give and whose variable holds [a]: one line for
    each character while there are some; then, if reads keep failing
    ([spin]), the line of [a] as it stands, again and again; if the read
    blocks, nothing more. *)
Fixpoint echo_prefix (k : nat) (cs : list ascii) (a : cchar) (spin : bool)
  : list line :=
  match k with
  | O => []
  | S k' =>
      match cs with
      | c :: cs' => echo_line (Char c) :: echo_prefix k' cs' (Char c) spin
      | [] => if spin then echo_line a :: echo_prefix k' [] a spin else []
      end
  end.

(** How many lines of the count are complete after [n] steps (a turn of the
    counting loop is four steps, the line is complete at the second), and how
    many calls of [sleep] are (complete at the third). *)
Definition counted (n : nat) : nat := Nat.min 5 ((n + 2) / 4).

Definition slept (n : nat) : nat := Nat.min 5 ((n + 1) / 4).

(** How many turns of the echo loop have written their line after [n]
    steps: the loop starts after twenty steps, a turn is five steps and
    its line is complete at the fourth. *)
Definition echoed_turns (n : nat) : nat := (n - 19) / 5.

(** ** The readings of the specification that the code does not bear out *)

(** The specification's reading of the variable: after every turn the
    line just written shows a character that a read has stored, the last
    of the input consumed so far. *)
Definition shows_read_character (inp : list ascii) (cl : bool) : Prop :=
  forall argc argv k w,
    run (20 + 5 * S k) (main argc argv) (boot inp cl) = Running w ->
    exists p c,
      inp = p ++ buf (cin w)
      /\ last (map Char (filter nonspace p)) Indeterminate = Char c
      /\ last (lines (cout w)) [] = echo_line (Char c).




(** ** Running sequences and loops *)

Section Run.
Context {R S : Type}.

Lemma observe_bind (t : itree stdE R) (k : R -> itree stdE S) :
  observe (ITree.bind t k) =
  match observe t with
  | RetF r => observe (k r)
  | TauF t' => TauF (ITree.bind t' k)
  | VisF e h => VisF e (fun x => ITree.bind (h x) k)
  end.
Proof.
  change (observe (ITree.bind t k))
    with (observe (match observe t with
                   | RetF r => k r
                   | TauF t' => Tau (ITree.bind t' k)
                   | VisF e h => Vis e (fun x => ITree.bind (h x) k)
                   end)).
  destruct (observe t); reflexivity.
Qed.

(** [t ;; k] runs [t], and [k] on the steps [t] has left. *)
Lemma run_bind (k : R -> itree stdE S) :
  forall n (t : itree stdE R) w,
    run n (ITree.bind t k) w =
    match run n t w with
    | Exited r w' m => run m (k r) w'
    | Waiting w' => Waiting w'
    | Running w' => Running w'
    end.
Proof.
  induction n as [|n IH]; intros t w; [reflexivity|].
  cbn [run]. rewrite observe_bind.
  destruct (observe t) as [r|t'|X e h].
  - reflexivity.
  - apply IH.
  - destruct (handle e w) as [[x w']|w']; [apply IH | reflexivity].
Qed.
End Run.

(** Closes a goal that compares two worlds after a symbolic run: the
    lines are put in one shape and the clocks compared. *)
Ltac same_world :=
  unfold at_bol, endl, put; cbn;
  repeat rewrite <- app_assoc; cbn;
  do 2 f_equal; lia.

(** Twenty steps take the process through the counting loop, five
    seconds of which it spends suspended. *)
Lemma run_startup n s ls t :
  run (20 + S n) startup (at_bol s ls t) =
  Exited tt (at_bol s (ls ++ startup_lines) (t + 5)) (S n).
Proof. cbn. same_world. Qed.

(** One turn of the echo loop takes five steps, unless the read blocks. *)
Lemma run_echo_turn n a s ls t :
  run (5 + n) (echo a) (at_bol s ls t) =
  match extract s with
  | Got c s' => run n (echo (Char c)) (at_bol s' (ls ++ [echo_line (Char c)]) t)
  | Failed s' => run n (echo a) (at_bol s' (ls ++ [echo_line a]) t)
  | Blocks s' => Waiting (at_bol s' ls t)
  end.
Proof.
  cbn. destruct (extract s); reflexivity.
Qed.

(** Induction over runs of a loop whose turn takes five steps. *)
Lemma turn_ind (P : nat -> Prop) :
  P 0%nat -> P 1%nat -> P 2%nat -> P 3%nat -> P 4%nat ->
  (forall n, P n -> P (5 + n)%nat) ->
  forall n, P n.
Proof.
  intros H0 H1 H2 H3 H4 Hstep n.
  induction n as [n IH] using lt_wf_ind.
  destruct n as [|[|[|[|[|n]]]]]; auto.
  apply (Hstep n), IH. lia.
Qed.

(** The echo loop has no way out, whatever the streams do. *)
Lemma echo_never_exits n :
  forall a w, exited (run n (echo a) w) = false.
Proof.
  induction n as [| | | | |n IH] using turn_ind; intros a w;
    try (cbn; destruct (extract (cin w)); reflexivity).
  change (5 + n)%nat with (S (S (S (S (S n))))).
  cbn. destruct (extract (cin w)); [apply IH | apply IH | reflexivity].
Qed.

(** Every line the echo loop completes is an echo line. *)
Lemma echo_stdout_shape n :
  forall a s ls t,
    exists es, stdout (run n (echo a) (at_bol s ls t)) = ls ++ es
               /\ Forall is_echo es.
Proof.
  induction n as [| | | | |n IH] using turn_ind; intros a s ls t.
  1-4: exists []; cbn; destruct (extract s); cbn; rewrite app_nil_r; auto.
  - cbn. destruct (extract s) as [c s'|s'|s']; cbn.
    + exists [echo_line (Char c)]. split; [reflexivity|].
      constructor; [exists (Char c); reflexivity | constructor].
    + exists [echo_line a]. split; [reflexivity|].
      constructor; [exists a; reflexivity | constructor].
    + exists []. rewrite app_nil_r. auto.
  - rewrite run_echo_turn.
    destruct (extract s) as [c s'|s'|s'].
    + destruct (IH (Char c) s' (ls ++ [echo_line (Char c)]) t) as (es & E & F).
      exists (echo_line (Char c) :: es). rewrite E, <- app_assoc.
      split; [reflexivity|]. constructor; [exists (Char c); reflexivity | exact F].
    + destruct (IH a s' (ls ++ [echo_line a]) t) as (es & E & F).
      exists (echo_line a :: es). rewrite E, <- app_assoc.
      split; [reflexivity|]. constructor; [exists a; reflexivity | exact F].
    + exists []. cbn. rewrite app_nil_r. auto.
Qed.

(** ** Facts about the input stream *)

Lemma good_fresh s : good s = true -> s = fresh (buf s) (closed s).
Proof.
  destruct s as [l cl [|] [|] [|]]; cbn; intros H; try discriminate H.
  reflexivity.
Qed.

(** The first character that is not white space is the one [skipws] stops
    at; what it skipped was white space. *)
Lemma skipws_filter l : forall c cs,
  filter nonspace l = c :: cs ->
  exists ws l1, l = ws ++ c :: l1 /\ filter nonspace ws = []
                /\ skipws l = c :: l1 /\ filter nonspace l1 = cs.
Proof.
  induction l as [|x l IH]; intros c cs H; [discriminate H|].
  cbn [filter skipws] in H |- *.
  destruct (isspace x) eqn:Ex.
  - assert (Nx : nonspace x = false) by (unfold nonspace; rewrite Ex; reflexivity).
    rewrite Nx in H.
    destruct (IH _ _ H) as (ws & l1 & -> & Hws & Hs & Hl).
    exists (x :: ws), l1. cbn [filter app]. rewrite Nx. auto.
  - assert (Nx : nonspace x = true) by (unfold nonspace; rewrite Ex; reflexivity).
    rewrite Nx in H. injection H as -> H. exists [], l. auto.
Qed.

Lemma skipws_blank l : filter nonspace l = [] -> skipws l = [].
Proof.
  induction l as [|x l IH]; [reflexivity|].
  cbn [filter skipws]. unfold nonspace at 1.
  destruct (isspace x); cbn [negb]; [exact IH | discriminate].
Qed.

Lemma last_cons {A : Type} (l : list A) : forall x d, last (x :: l) d = last l x.
Proof.
  induction l as [|y l IH]; intros x d; [reflexivity|].
  change (last (x :: y :: l) d) with (last (y :: l) d).
  rewrite !IH. reflexivity.
Qed.

Lemma extract_fresh_got l cl c l1 :
  skipws l = c :: l1 -> extract (fresh l cl) = Got c (fresh l1 cl).
Proof. intros H. unfold extract. cbn. rewrite H. reflexivity. Qed.

Lemma extract_fresh_end l cl :
  skipws l = [] ->
  extract (fresh l cl) =
  if cl then Failed (mk_istream [] true true true false)
  else Blocks (fresh [] false).
Proof. intros H. unfold extract. cbn. rewrite H. reflexivity. Qed.

(** A failed extraction leaves a stream on which every extraction fails,
    and which it does not change any more. *)
Lemma extract_failed_good s s' : extract s = Failed s' -> good s' = false.
Proof.
  unfold extract. destruct (good s).
  - destruct (skipws (buf s)); [|discriminate].
    destruct (closed s); [|discriminate].
    intros H. injection H as <-. reflexivity.
  - intros H. injection H as <-. unfold good. cbn.
    destruct (eofbit s); reflexivity.
Qed.

Lemma extract_failed_again s s' : extract s = Failed s' -> extract s' = Failed s'.
Proof.
  intros H. pose proof (extract_failed_good _ _ H) as G.
  unfold extract in *. rewrite G. destruct (good s).
  - destruct (skipws (buf s)); [|discriminate].
    destruct (closed s); [|discriminate].
    injection H as <-. reflexivity.
  - injection H as <-. reflexivity.
Qed.

Lemma extract_not_good s : good s = false -> exists s', extract s = Failed s'.
Proof. intros G. unfold extract. rewrite G. eauto. Qed.

(** An extraction that stores a character has skipped white space, and
    taken one character that is not. *)
Lemma extract_got s c s' :
  extract s = Got c s' ->
  isspace c = false
  /\ exists ws, buf s = ws ++ c :: buf s' /\ filter nonspace ws = [].
Proof.
  unfold extract. destruct (good s); [|discriminate].
  induction (buf s) as [|x l IH]; cbn [skipws].
  - destruct (closed s); discriminate.
  - destruct (isspace x) eqn:Ex.
    + intros H. destruct (IH H) as (Hc & ws & -> & Hws).
      split; [exact Hc|]. exists (x :: ws). cbn [app filter].
      unfold nonspace at 1. rewrite Ex. auto.
    + intros H. injection H as <- <-. split; [exact Ex|].
      exists []. auto.
Qed.

Create HintDb cin discriminated.
#[local] Hint Resolve extract_failed_good extract_failed_again skipws_blank : cin.

(** ** The echo loop, turn by turn *)

(** As long as characters other than white space are there, each turn
    takes the next one and writes it. *)
Lemma run_echo_reads cs1 : forall l cs2 cl a ls t n,
  filter nonspace l = cs1 ++ cs2 ->
  exists p rest,
    l = p ++ rest /\ filter nonspace p = cs1 /\ filter nonspace rest = cs2 /\
    run (5 * length cs1 + n) (echo a) (at_bol (fresh l cl) ls t) =
    run n (echo (last (map Char cs1) a)) (at_bol (fresh rest cl) (ls ++ echoes cs1) t).
Proof.
  induction cs1 as [|c cs1 IH]; intros l cs2 cl a ls t n H.
  - exists [], l. cbn. rewrite app_nil_r. auto.
  - destruct (skipws_filter l _ _ H) as (ws & l1 & -> & Hws & Hs & Hl).
    destruct (IH l1 cs2 cl (Char c) (ls ++ [echo_line (Char c)]) t n Hl)
      as (p & rest & -> & Hp & Hr & E).
    exists (ws ++ c :: p), rest. repeat split.
    + rewrite <- app_assoc. reflexivity.
    + rewrite filter_app, Hws. cbn.
      assert (Hc : nonspace c = true).
      { assert (In c (filter nonspace (ws ++ c :: p ++ rest))) as I
          by (rewrite H; left; reflexivity).
        apply filter_In in I. tauto. }
      rewrite Hc, Hp. reflexivity.
    + exact Hr.
    + replace (5 * length (c :: cs1) + n)%nat
        with (5 + (5 * length cs1 + n))%nat by (cbn [length]; lia).
      rewrite run_echo_turn, (extract_fresh_got _ cl _ _ Hs), E.
      cbn [map]. rewrite last_cons. unfold echoes. cbn [map].
      rewrite <- app_assoc. reflexivity.
Qed.

(** Once an extraction has failed, every turn fails the same way: it
    returns at once, stores nothing, and the same line is written again. *)
Lemma run_echo_spin k : forall s s' a ls t n,
  extract s = Failed s' ->
  run (5 * S k + n) (echo a) (at_bol s ls t) =
  run n (echo a) (at_bol s' (ls ++ repeat (echo_line a) (S k)) t).
Proof.
  induction k as [|k IH]; intros s s' a ls t n H.
  - change (5 * 1 + n)%nat with (5 + n)%nat. rewrite run_echo_turn, H. reflexivity.
  - replace (5 * S (S k) + n)%nat with (5 + (5 * S k + n))%nat by lia.
    rewrite run_echo_turn, H.
    rewrite (IH s' s' a _ t n (extract_failed_again _ _ H)).
    rewrite <- app_assoc. reflexivity.
Qed.

Lemma run_echo_blocks n a w s' :
  extract (cin w) = Blocks s' ->
  run (S n) (echo a) w = Waiting (mk_world s' (cout w) (asleep w)).
Proof. intros H. cbn -[extract]. rewrite H. reflexivity. Qed.

(** At the end of an open stream the loop waits ... *)
Lemma run_echo_end_open n a rest ls t :
  filter nonspace rest = [] ->
  run (S n) (echo a) (at_bol (fresh rest false) ls t) =
  Waiting (at_bol (fresh [] false) ls t).
Proof.
  intros H. apply run_echo_blocks. cbn [cin at_bol].
  rewrite (extract_fresh_end _ _ (skipws_blank _ H)). reflexivity.
Qed.

(** ... and at the end of a closed one it spins. *)
Lemma run_echo_end_closed k n a rest ls t :
  filter nonspace rest = [] ->
  run (5 * S k + n) (echo a) (at_bol (fresh rest true) ls t) =
  run n (echo a) (at_bol at_eof (ls ++ repeat (echo_line a) (S k)) t).
Proof.
  intros H. apply run_echo_spin.
  rewrite (extract_fresh_end _ _ (skipws_blank _ H)). reflexivity.
Qed.

Lemma extract_ends s :
  ends s ->
  match extract s with
  | Got _ s' => ends s'
  | Failed s' => ends s'
  | Blocks _ => False
  end.
Proof.
  intros H. destruct (extract s) as [c s'|s'|s'] eqn:E.
  - unfold extract in E. destruct (good s) eqn:G; [|discriminate].
    destruct (skipws (buf s)); [destruct (closed s); discriminate|].
    injection E as _ <-. destruct H as [H|H]; [left; exact H | congruence].
  - right. exact (extract_failed_good _ _ E).
  - unfold extract in E. destruct (good s) eqn:G; [|discriminate].
    destruct (skipws (buf s)); [|discriminate].
    destruct H as [H|H]; [rewrite H in E; discriminate | congruence].
Qed.

Lemma echo_keeps_running n :
  forall a s ls t, ends s -> running (run n (echo a) (at_bol s ls t)) = true.
Proof.
  induction n as [| | | | |n IH] using turn_ind; intros a s ls t H;
    pose proof (extract_ends _ H) as X.
  1-5: cbn; destruct (extract s); [reflexivity | reflexivity | destruct X].
  rewrite run_echo_turn.
  destruct (extract s); [apply IH, X | apply IH, X | destruct X].
Qed.

(** ** [main]: the two loops in sequence *)

Section Process.
Variable argc : Z.
Variable argv : list string.

Lemma of_echo_world o : exited o = false -> world_of (of_echo o) = world_of o.
Proof. destruct o; [discriminate | reflexivity | reflexivity]. Qed.

Lemma of_echo_exited o : exited o = false -> exited (of_echo o) = false.
Proof. destruct o; [discriminate | reflexivity | reflexivity]. Qed.

Lemma run_main n s ls t :
  run (20 + n) (main argc argv) (at_bol s ls t) =
  of_echo (run n (echo Indeterminate) (at_bol s (ls ++ startup_lines) (t + 5))).
Proof.
  destruct n as [|n].
  - cbn. same_world.
  - unfold main. rewrite run_bind, run_startup, run_bind. reflexivity.
Qed.

(** Before that, [main] is counting. *)
Lemma run_main_counting s ls t :
  Forall (fun n =>
            exists w, run n (main argc argv) (at_bol s ls t) = Running w
                      /\ lines (cout w) = ls ++ firstn ((n + 2) / 4) startup_lines)
         (seq 0 20).
Proof.
  repeat constructor;
    (eexists; split; [cbn; reflexivity|]);
    cbn; repeat rewrite <- app_assoc; cbn; rewrite ?app_nil_r; reflexivity.
Qed.

Lemma run_main_early n s ls t :
  (n < 20)%nat ->
  exists w, run n (main argc argv) (at_bol s ls t) = Running w
            /\ lines (cout w) = ls ++ firstn ((n + 2) / 4) startup_lines.
Proof.
  intros H. pose proof (run_main_counting s ls t) as F.
  rewrite Forall_forall in F. apply F, in_seq. lia.
Qed.

Lemma main_never_exits n s ls t :
  exited (run n (main argc argv) (at_bol s ls t)) = false.
Proof.
  destruct (Nat.lt_ge_cases n 20) as [H|H].
  - destruct (run_main_early n s ls t H) as (w & -> & _). reflexivity.
  - replace n with (20 + (n - 20))%nat by lia.
    rewrite run_main. apply of_echo_exited, echo_never_exits.
Qed.

Lemma stdout_of_echo o : exited o = false -> stdout (of_echo o) = stdout o.
Proof. intros H. unfold stdout. rewrite of_echo_world; [reflexivity | exact H]. Qed.

Lemma run_main_start n s :
  run (20 + n) (main argc argv) (start s) =
  of_echo (run n (echo Indeterminate) (at_bol s startup_lines 5)).
Proof. exact (run_main n s [] 0). Qed.

Lemma main_stdout_echoing n s :
  exists es, stdout (run (20 + n) (main argc argv) (start s)) = startup_lines ++ es
             /\ Forall is_echo es.
Proof.
  rewrite run_main_start, stdout_of_echo by apply echo_never_exits.
  apply echo_stdout_shape.
Qed.

Lemma startup_line_not_echo : Forall (fun l => ~ is_echo l) startup_lines.
Proof. repeat constructor; intros [a H]; discriminate H. Qed.

(** ** The properties of the program *)

(** C2.  Whatever the input and however long the process has run, its
    output is the lines [0], [1], [2], [3], [4] in this order, or a prefix
    of them, followed by echo lines only, and by none before all five are
    there; after twenty steps the five are there.  None of the five is an
    echo line. *)
Theorem startup_lines_come_first inp cl n :
  (exists k es,
      stdout (run n (main argc argv) (boot inp cl)) = firstn k startup_lines ++ es
      /\ Forall is_echo es /\ (k = 5%nat \/ es = []))
  /\ firstn 5 (stdout (run (20 + n) (main argc argv) (boot inp cl))) = startup_lines
  /\ Forall (fun l => ~ is_echo l) startup_lines.
Proof.
  change (boot inp cl) with (start (fresh inp cl)).
  split; [|split].
  - destruct (Nat.lt_ge_cases n 20) as [H|H].
    + destruct (run_main_early n (fresh inp cl) [] 0 H) as (w & E & L).
      exists ((n + 2) / 4)%nat, []. unfold start, stdout.
      change (at_bol (fresh inp cl) [] 0) with (start (fresh inp cl)) in E.
      unfold start in E. rewrite E. cbn [world_of]. rewrite L, app_nil_r.
      auto.
    + replace n with (20 + (n - 20))%nat by lia.
      destruct (main_stdout_echoing (n - 20) (fresh inp cl)) as (es & E & F).
      exists 5%nat, es. rewrite E. auto.
  - destruct (main_stdout_echoing n (fresh inp cl)) as (es & E & F).
    rewrite E. reflexivity.
  - exact startup_line_not_echo.
Qed.

(** C3.  On an input stream that is not closed the process never reaches
    [return 0]: after any number of steps it is still executing, or it is
    suspended in a read. *)
Theorem main_never_returns inp n :
  exists w, run n (main argc argv) (boot inp false) = Running w
            \/ run n (main argc argv) (boot inp false) = Waiting w.
Proof.
  pose proof (main_never_exits n (fresh inp false) [] 0) as H.
  change (at_bol (fresh inp false) [] 0) with (boot inp false) in H.
  destruct (run n (main argc argv) (boot inp false)) as [r w m|w|w].
  - discriminate H.
  - exists w. right. reflexivity.
  - exists w. left. reflexivity.
Qed.


Lemma main_reads inp cl cs1 cs2 n :
  filter nonspace inp = cs1 ++ cs2 ->
  exists p rest,
    inp = p ++ rest /\ filter nonspace p = cs1 /\ filter nonspace rest = cs2 /\
    run (20 + (5 * length cs1 + n)) (main argc argv) (boot inp cl) =
    of_echo (run n (echo (last (map Char cs1) Indeterminate))
                 (at_bol (fresh rest cl) (startup_lines ++ echoes cs1) 5)).
Proof.
  intros H.
  destruct (run_echo_reads cs1 inp cs2 cl Indeterminate startup_lines 5 n H)
    as (p & rest & Hp & Hc & Hr & E).
  exists p, rest. repeat split; try assumption.
  change (boot inp cl) with (start (fresh inp cl)).
  rewrite run_main_start, E. reflexivity.
Qed.

Lemma last_echoes ls cs a d :
  cs <> [] -> last (ls ++ echoes cs) d = echo_line (last (map Char cs) a).
Proof.
  intros H. destruct (exists_last H) as (cs' & c & ->).
  unfold echoes. rewrite !map_app, app_assoc. cbn [map].
  rewrite !last_last. reflexivity.
Qed.

Lemma last_repeat {A : Type} (l : list A) x k d : last (l ++ repeat x (S k)) d = x.
Proof.
  change (repeat x (S k)) with (x :: repeat x k).
  rewrite repeat_cons, app_assoc. apply last_last.
Qed.

(** C5, as amended.  After each print the line just written shows the
    character the reads have stored last: the last character, white space
    apart, of the input consumed so far.  As long as no read has stored a
    character it shows the indeterminate value the variable has had since
    its declaration. *)
Theorem echo_shows_last_read inp cl k w :
  run (20 + 5 * S k) (main argc argv) (boot inp cl) = Running w ->
  exists p,
    inp = p ++ buf (cin w)
    /\ last (lines (cout w)) [] =
       echo_line (last (map Char (filter nonspace p)) Indeterminate).
Proof.
  intros H.
  destruct (Nat.le_gt_cases (S k) (length (filter nonspace inp))) as [L|L].
  - pose proof (firstn_skipn (S k) (filter nonspace inp)) as D.
    pose proof (firstn_length_le _ L) as Len.
    destruct (main_reads inp cl _ _ 0%nat (eq_sym D))
      as (p & rest & Hp & Hc & _ & E).
    rewrite Len, Nat.add_0_r in E. rewrite E in H.
    apply (f_equal world_of) in H. cbn [run of_echo world_of] in H. subst w.
    exists p. split; [exact Hp|].
    cbn [at_bol cout lines]. rewrite Hc. apply last_echoes.
    intros Z0. rewrite Z0 in Len. discriminate Len.
  - destruct (main_reads inp cl (filter nonspace inp) []
                (5 * S (k - length (filter nonspace inp)))%nat
                (eq_sym (app_nil_r _)))
      as (p & rest & Hp & Hc & Hr & E).
    replace (20 + (5 * length (filter nonspace inp)
                   + 5 * S (k - length (filter nonspace inp))))%nat
      with (20 + 5 * S k)%nat in E by lia.
    rewrite E in H. destruct cl.
    + rewrite <- (Nat.add_0_r (5 * S _)) in H.
      rewrite (run_echo_end_closed _ _ _ _ _ _ Hr) in H.
      apply (f_equal world_of) in H. cbn [run of_echo world_of] in H. subst w.
      exists inp. cbn [at_bol cin cout lines buf at_eof].
      split; [symmetry; apply app_nil_r|].
      apply last_repeat.
    + replace (5 * S (k - length (filter nonspace inp)))%nat
        with (S (4 + 5 * (k - length (filter nonspace inp))))%nat in H by lia.
      rewrite (run_echo_end_open _ _ _ _ _ Hr) in H. discriminate H.
Qed.

(** C6.  A turn of the echo loop whose read returns writes one echo line,
    of the variable as the read has left it, and goes on to the next turn
    with the stream as the read has left it: the same for a read that
    stored a character and for one that failed.  After a failed read the
    stream is still not good when the next turn begins. *)
Theorem echo_turn_unchecked a s ls t n r s' :
  returned (extract s) = Some (r, s') ->
  run (5 + n) (echo a) (at_bol s ls t) =
  run n (echo (store a r)) (at_bol s' (ls ++ [echo_line (store a r)]) t)
  /\ ((exists c, r = Some c) \/ (r = None /\ good s' = false)).
Proof.
  intros H. rewrite run_echo_turn.
  destruct (extract s) as [c s1|s1|s1] eqn:E; cbn in H.
  - injection H as <- <-. split; [reflexivity | left; exists c; reflexivity].
  - injection H as <- <-. split; [reflexivity | right].
    split; [reflexivity | eauto with cin].
  - discriminate H.
Qed.

(** C8.  With N characters other than white space in the input, the
    process comes out of N turns of the echo loop with N echo lines
    written, one for each of these characters in the order of the input,
    none of them white space, and with the stream still good; what is left
    in the stream is white space, so that the next extraction does not
    store a character. *)
Theorem one_echo_per_character inp cl :
  exists w,
    run (20 + 5 * length (filter nonspace inp)) (main argc argv) (boot inp cl)
    = Running w
    /\ lines (cout w) = startup_lines ++ echoes (filter nonspace inp)
    /\ length (echoes (filter nonspace inp)) = length (filter nonspace inp)
    /\ Forall (fun c => isspace c = false) (filter nonspace inp)
    /\ good (cin w) = true
    /\ filter nonspace (buf (cin w)) = []
    /\ forall c s', extract (cin w) <> Got c s'.
Proof.
  destruct (main_reads inp cl (filter nonspace inp) [] 0%nat
              (eq_sym (app_nil_r _)))
    as (p & rest & Hp & Hc & Hr & E).
  rewrite Nat.add_0_r in E. rewrite E. cbn [run of_echo].
  eexists. split; [reflexivity|]. cbn [at_bol cin cout lines buf fresh].
  repeat split.
  - unfold echoes. apply length_map.
  - apply Forall_forall. intros c I. apply filter_In in I.
    destruct I as [_ I]. unfold nonspace in I.
    destruct (isspace c); [discriminate I | reflexivity].
  - exact Hr.
  - intros c s'. fold (fresh rest cl).
    rewrite (extract_fresh_end _ _ (skipws_blank _ Hr)).
    destruct cl; discriminate.
Qed.

(** C9.  When standard input is closed, or not in good state, the process
    is executing after any number of steps: it neither returns nor waits.
    Once the characters the stream still had are echoed, every further
    turn writes the same line again, [a = ] followed by the last character
    that was stored, and leaves the stream failed as it was. *)
Theorem echo_spins_at_end s :
  ends s ->
  (forall n, exists w, run n (main argc argv) (start s) = Running w)
  /\ (forall k, exists w,
        run (20 + 5 * (length (readable s) + S k)) (main argc argv) (start s)
        = Running w
        /\ lines (cout w) =
           startup_lines ++ echoes (readable s)
           ++ repeat (echo_line (last (map Char (readable s)) Indeterminate)) (S k)
        /\ good (cin w) = false
        /\ extract (cin w) = Failed (cin w)).
Proof.
  intros H. split.
  - intros n. destruct (Nat.lt_ge_cases n 20) as [L|L].
    + destruct (run_main_early n s [] 0 L) as (w & E & _).
      exists w. exact E.
    + replace n with (20 + (n - 20))%nat by lia. rewrite run_main_start.
      pose proof (echo_keeps_running (n - 20) Indeterminate s startup_lines 5 H) as K.
      destruct (run (n - 20) (echo Indeterminate) (at_bol s startup_lines 5))
        as [r w m|w|w]; try discriminate K.
      exists w. reflexivity.
  - intros k. unfold readable. destruct (good s) eqn:G.
    + destruct H as [H|H]; [|congruence].
      rewrite (good_fresh s G), H.
      change (start (fresh (buf s) true)) with (boot (buf s) true).
      cbn [buf fresh].
      destruct (main_reads (buf s) true (filter nonspace (buf s)) []
                  (5 * S k + 0)%nat (eq_sym (app_nil_r _)))
        as (p & rest & Hp & Hc & Hr & E).
      replace (20 + 5 * (length (filter nonspace (buf s)) + S k))%nat
        with (20 + (5 * length (filter nonspace (buf s)) + (5 * S k + 0)))%nat by lia.
      rewrite E, (run_echo_end_closed _ _ _ _ _ _ Hr). cbn [run of_echo].
      eexists. split; [reflexivity|]. cbn [at_bol cin cout lines].
      rewrite <- app_assoc. auto.
    + destruct (extract_not_good s G) as (s' & E).
      change (length (@nil ascii) + S k)%nat with (S k).
      rewrite <- (Nat.add_0_r (5 * S k)), run_main_start.
      rewrite (run_echo_spin k s s' _ _ _ _ E). cbn [run of_echo].
      eexists. split; [reflexivity|]. cbn [at_bol cin cout lines].
      split; [reflexivity|].
      split; eauto with cin.
Qed.

Lemma run_echo_first_failed n a s s' ls t :
  extract s = Failed s' ->
  exists es, stdout (run (4 + n) (echo a) (at_bol s ls t)) = ls ++ echo_line a :: es.
Proof.
  intros H. destruct n as [|n].
  - exists []. cbn -[extract echo_line]. rewrite H. reflexivity.
  - replace (4 + S n)%nat with (5 + n)%nat by lia.
    rewrite run_echo_turn, H.
    destruct (echo_stdout_shape n a s' (ls ++ [echo_line a]) t) as (es & E & _).
    exists es. rewrite E, <- app_assoc. reflexivity.
Qed.

(** C10.  [a] has no initializer.  If the first extraction fails, the
    first echo line, the sixth line of the output, shows an indeterminate
    value, which is no character of the input. *)
Theorem first_echo_indeterminate s s' n :
  extract s = Failed s' ->
  nth 5 (stdout (run (24 + n) (main argc argv) (start s))) [] = echo_line Indeterminate
  /\ forall c, echo_line Indeterminate <> echo_line (Char c).
Proof.
  intros H. split; [|intros c; discriminate].
  change (24 + n)%nat with (20 + (4 + n))%nat.
  rewrite run_main_start, stdout_of_echo by apply echo_never_exits.
  destruct (run_echo_first_failed n Indeterminate s s' startup_lines 5 H) as (es & ->).
  reflexivity.
Qed.

Lemma concat_tokens_from inp : forall cur,
  concat (tokens_from cur inp) = rev cur ++ filter nonspace inp.
Proof.
  induction inp as [|c rest IH]; intros cur.
  - destruct cur; cbn [tokens_from concat filter]; [reflexivity|].
    reflexivity.
  - cbn [tokens_from filter]. unfold nonspace at 1.
    destruct (isspace c); cbn [negb].
    + destruct cur as [|x cur]; [apply IH|].
      cbn [concat]. rewrite IH. reflexivity.
    + rewrite IH. cbn [rev]. rewrite <- app_assoc. reflexivity.
Qed.

Lemma concat_tokens inp : concat (tokens inp) = filter nonspace inp.
Proof. apply concat_tokens_from. Qed.

Lemma flat_map_echoes ts : flat_map echoes ts = echoes (concat ts).
Proof.
  induction ts as [|tok ts IH]; [reflexivity|].
  cbn [flat_map concat]. rewrite IH. unfold echoes. rewrite map_app. reflexivity.
Qed.

(** A process that waits keeps waiting. *)
Lemma run_waiting_more {R : Type} n : forall (t : itree stdE R) w w' m,
  run n t w = Waiting w' -> run (n + m) t w = Waiting w'.
Proof.
  induction n as [|n IH]; intros t w w' m H; [discriminate H|].
  cbn [run Nat.add] in H |- *.
  destruct (observe t) as [r|t'|X e h].
  - discriminate H.
  - apply IH, H.
  - destruct (handle e w) as [[x w1]|w1]; [apply IH, H | exact H].
Qed.

(** On an open stream the process ends up waiting, all the characters it
    was given echoed. *)
Lemma main_waits inp n :
  run (20 + (5 * length (filter nonspace inp) + S n)) (main argc argv) (boot inp false)
  = Waiting (at_bol (fresh [] false) (startup_lines ++ echoes (filter nonspace inp)) 5).
Proof.
  destruct (main_reads inp false (filter nonspace inp) [] (S n)
              (eq_sym (app_nil_r _)))
    as (p & rest & Hp & Hc & Hr & E).
  rewrite E, (run_echo_end_open _ _ _ _ _ Hr). reflexivity.
Qed.

(** C1, as amended.  The process takes its input a character at a time,
    not a token at a time: when it has used up what it was given and waits
    for more, it has written, for each token in turn, one echo line for
    each character of the token. *)
Theorem one_echo_per_token_character inp n w :
  run n (main argc argv) (boot inp false) = Waiting w ->
  echoed w = flat_map echoes (tokens inp).
Proof.
  intros H.
  apply (run_waiting_more n _ _ _ (20 + (5 * length (filter nonspace inp) + 1))) in H.
  replace (n + (20 + (5 * length (filter nonspace inp) + 1)))%nat
    with (20 + (5 * length (filter nonspace inp) + S n))%nat in H by lia.
  rewrite main_waits in H. injection H as <-.
  rewrite flat_map_echoes, concat_tokens. reflexivity.
Qed.

End Process.

(** ** The output at every step *)

(** What an extraction does to the characters a stream has to give. *)
Lemma extract_cases s :
  match extract s with
  | Got c s' => readable s = c :: readable s' /\ spins s' = spins s
  | Failed s' =>
      readable s = [] /\ spins s = true /\ readable s' = [] /\ spins s' = true
  | Blocks s' => readable s = [] /\ spins s = false
  end.
Proof.
  destruct (extract s) as [c s'|s'|s'] eqn:E.
  - destruct (extract_got _ _ _ E) as (Hc & ws & Hb & Hws).
    unfold extract in E. destruct (good s) eqn:G; [|discriminate].
    destruct (skipws (buf s)) as [|x l]; [destruct (closed s); discriminate|].
    injection E as -> <-. cbn [buf] in Hb.
    unfold readable, spins, good. cbn [buf closed eofbit failbit badbit].
    fold (good s). rewrite G, Hb, filter_app, Hws. cbn [app filter].
    unfold nonspace at 1. rewrite Hc. auto.
  - pose proof (extract_failed_good _ _ E) as G'.
    unfold readable, spins. rewrite G'.
    unfold extract in E. destruct (good s) eqn:G.
    + destruct (skipws (buf s)) as [|x l] eqn:K; [|discriminate].
      destruct (closed s) eqn:C; [|discriminate].
      injection E as <-. cbn [closed]. repeat split.
      destruct (filter nonspace (buf s)) as [|c cs] eqn:F; [reflexivity|].
      destruct (skipws_filter _ _ _ F) as (ws & l1 & _ & _ & K' & _).
      rewrite K in K'. discriminate K'.
    + injection E as <-. cbn [closed]. rewrite !orb_true_r. auto.
  - unfold readable, spins.
    unfold extract in E. destruct (good s) eqn:G; [|discriminate].
    destruct (skipws (buf s)) as [|x l] eqn:K; [|discriminate].
    destruct (closed s) eqn:C; [discriminate|]. split; [|reflexivity].
    destruct (filter nonspace (buf s)) as [|c cs] eqn:F; [reflexivity|].
    destruct (skipws_filter _ _ _ F) as (ws & l1 & _ & _ & K' & _).
    rewrite K in K'. discriminate K'.
Qed.

Lemma turn_div n : ((5 + n + 1) / 5 = S ((n + 1) / 5))%nat.
Proof.
  replace (5 + n + 1)%nat with (1 * 5 + (n + 1))%nat by lia.
  rewrite Nat.div_add_l by discriminate. reflexivity.
Qed.

(** The echo loop writes the lines [echo_prefix] tells, a line each turn. *)
Lemma echo_stdout_prefix n :
  forall a s ls t,
    stdout (run n (echo a) (at_bol s ls t))
    = ls ++ echo_prefix ((n + 1) / 5) (readable s) a (spins s).
Proof.
  induction n as [| | | | |n IH] using turn_ind; intros a s ls t;
    pose proof (extract_cases s) as X.
  1-4: cbn; destruct (extract s); cbn; rewrite app_nil_r; reflexivity.
  - change ((4 + 1) / 5)%nat with 1%nat.
    cbn -[extract echo_line readable spins].
    destruct (extract s) as [c s'|s'|s'].
    + destruct X as (-> & _). reflexivity.
    + destruct X as (-> & -> & _). reflexivity.
    + destruct X as (-> & ->). cbn. rewrite app_nil_r. reflexivity.
  - rewrite turn_div, run_echo_turn.
    destruct (extract s) as [c s'|s'|s'].
    + destruct X as (-> & <-). rewrite IH, <- app_assoc. reflexivity.
    + destruct X as (-> & -> & R' & S'). rewrite IH, R', S', <- app_assoc.
      reflexivity.
    + destruct X as (-> & ->). cbn. rewrite app_nil_r. reflexivity.
Qed.

(** The echo loop does not sleep. *)
Lemma echo_asleep n :
  forall a s ls t, asleep (world_of (run n (echo a) (at_bol s ls t))) = t.
Proof.
  induction n as [| | | | |n IH] using turn_ind; intros a s ls t.
  1-5: cbn; destruct (extract s); reflexivity.
  rewrite run_echo_turn. destruct (extract s); [apply IH | apply IH | reflexivity].
Qed.

(** ** What [echo_prefix] holds *)

Lemma echo_line_inj x y : echo_line x = echo_line y -> x = y.
Proof.
  unfold echo_line. intros H. apply app_inv_head in H.
  injection H as H. exact H.
Qed.

Lemma in_firstn {A : Type} (x : A) k l : In x (firstn k l) -> In x l.
Proof.
  intros H. rewrite <- (firstn_skipn k l). apply in_or_app. left. exact H.
Qed.

(** A line of [echo_prefix] shows the variable as it stood, or one of the
    characters. *)
Lemma in_echo_prefix x k : forall cs a sp,
  In (echo_line x) (echo_prefix k cs a sp) ->
  x = a \/ exists c, x = Char c /\ In c cs.
Proof.
  induction k as [|k IH]; intros cs a sp H; [destruct H|].
  cbn [echo_prefix] in H. destruct cs as [|c cs].
  - destruct sp; [|destruct H].
    destruct H as [H|H]; [left; symmetry; exact (echo_line_inj _ _ H)|].
    destruct (IH _ _ _ H) as [E|(c & _ & [])]. left. exact E.
  - destruct H as [H|H].
    + right. exists c. split; [symmetry; exact (echo_line_inj _ _ H) | left; reflexivity].
    + destruct (IH _ _ _ H) as [E|(c' & E & I)].
      * right. exists c. split; [exact E | left; reflexivity].
      * right. exists c'. split; [exact E | right; exact I].
Qed.

(** An indeterminate value shows only if the variable was indeterminate
    and no character came. *)
Lemma indeterminate_in_echo_prefix k : forall cs a sp,
  In (echo_line Indeterminate) (echo_prefix k cs a sp) ->
  a = Indeterminate /\ cs = [] /\ sp = true.
Proof.
  induction k as [|k IH]; intros cs a sp H; [destruct H|].
  cbn [echo_prefix] in H. destruct cs as [|c cs].
  - destruct sp; [|destruct H].
    destruct H as [H|H]; [|destruct (IH _ _ _ H) as (E & _); auto].
    apply echo_line_inj in H. auto.
  - destruct H as [H|H].
    + apply echo_line_inj in H. discriminate H.
    + destruct (IH _ _ _ H) as (E & _). discriminate E.
Qed.

(** On an open stream, more characters only add lines. *)
Lemma echo_prefix_app k : forall cs more a,
  exists suf, echo_prefix k (cs ++ more) a false = echo_prefix k cs a false ++ suf.
Proof.
  induction k as [|k IH]; intros cs more a; [exists []; reflexivity|].
  destruct cs as [|c cs].
  - eexists. reflexivity.
  - cbn [app echo_prefix]. destruct (IH cs more (Char c)) as (suf & ->).
    exists suf. reflexivity.
Qed.

Lemma length_echo_prefix k : forall cs a sp,
  length (echo_prefix k cs a sp) = if sp then k else Nat.min k (length cs).
Proof.
  induction k as [|k IH]; intros cs a sp; [destruct sp; reflexivity|].
  cbn [echo_prefix]. destruct cs as [|c cs].
  - destruct sp; [|reflexivity]. cbn [length]. rewrite IH. reflexivity.
  - cbn [length]. rewrite IH. destruct sp; reflexivity.
Qed.

Section Output.
Variable argc : Z.
Variable argv : list string.

(** The world of [main] in each of its first twenty steps: the count and
    the sleeps go hand in hand, and standard input is left alone. *)
Lemma run_main_counting_world s ls t :
  Forall (fun n =>
            exists w, run n (main argc argv) (at_bol s ls t) = Running w
                      /\ cin w = s
                      /\ lines (cout w) = ls ++ firstn (counted n) startup_lines
                      /\ asleep w = t + Z.of_nat (slept n)
                      /\ (slept n <= counted n <= S (slept n))%nat
                      /\ echoed_turns n = 0%nat)
         (seq 0 20).
Proof.
  repeat constructor;
    (eexists; split; [cbn; reflexivity|]);
    cbn; repeat rewrite <- app_assoc; cbn; rewrite ?app_nil_r;
    repeat split; lia.
Qed.

Lemma run_main_early_world n s ls t :
  (n < 20)%nat ->
  exists w, run n (main argc argv) (at_bol s ls t) = Running w
            /\ cin w = s
            /\ lines (cout w) = ls ++ firstn (counted n) startup_lines
            /\ asleep w = t + Z.of_nat (slept n)
            /\ (slept n <= counted n <= S (slept n))%nat
            /\ echoed_turns n = 0%nat.
Proof.
  intros H. pose proof (run_main_counting_world s ls t) as F.
  rewrite Forall_forall in F. apply F, in_seq. lia.
Qed.

Lemma counted_late m : counted (20 + m) = 5%nat.
Proof.
  unfold counted. apply Nat.min_l.
  apply Nat.div_le_lower_bound; [discriminate | lia].
Qed.

Lemma slept_late m : slept (20 + m) = 5%nat.
Proof.
  unfold slept. apply Nat.min_l.
  apply Nat.div_le_lower_bound; [discriminate | lia].
Qed.

Lemma echoed_turns_late m : echoed_turns (20 + m) = ((m + 1) / 5)%nat.
Proof. unfold echoed_turns. f_equal. lia. Qed.

(** The lines [main] has written after any number of steps. *)
Lemma main_stdout_from n s ls t :
  stdout (run n (main argc argv) (at_bol s ls t))
  = ls ++ firstn (counted n) startup_lines
       ++ echo_prefix (echoed_turns n) (readable s) Indeterminate (spins s).
Proof.
  destruct (Nat.lt_ge_cases n 20) as [H|H].
  - destruct (run_main_early_world n s ls t H) as (w & E & _ & L & _ & _ & T).
    unfold stdout. rewrite E, T. cbn [world_of echo_prefix].
    rewrite app_nil_r. exact L.
  - replace n with (20 + (n - 20))%nat by lia.
    rewrite run_main, stdout_of_echo by apply echo_never_exits.
    rewrite echo_stdout_prefix, counted_late, echoed_turns_late, <- app_assoc.
    reflexivity.
Qed.

(** The seconds [main] has slept after any number of steps. *)
Lemma main_asleep_from n s ls t :
  asleep (world_of (run n (main argc argv) (at_bol s ls t)))
  = t + Z.of_nat (slept n).
Proof.
  destruct (Nat.lt_ge_cases n 20) as [H|H].
  - destruct (run_main_early_world n s ls t H) as (w & E & _ & _ & A & _).
    rewrite E. exact A.
  - replace n with (20 + (n - 20))%nat by lia.
    rewrite run_main, of_echo_world by apply echo_never_exits.
    rewrite echo_asleep, slept_late. reflexivity.
Qed.

(** ** Further properties of the process *)

(** X1.  What the process has written after [n] steps is a function of
    [n], of the characters the stream has to give and of whether reads at
    its end fail or block: the lines of the count complete by then, then
    the echo lines [echo_prefix] tells. *)
Theorem stdout_at_every_step s n :
  stdout (run n (main argc argv) (start s))
  = firstn (counted n) startup_lines
    ++ echo_prefix (echoed_turns n) (readable s) Indeterminate (spins s).
Proof.
  change (start s) with (at_bol s [] 0).
  rewrite main_stdout_from. reflexivity.
Qed.

(** X2.  The process sleeps one second after each line of the count and at
    no other time: after [n] steps it has slept [slept n] seconds, five at
    most, and of the five lines of the count it has written as many as it
    has slept seconds, or one more. *)
Theorem sleeps_follow_lines s n :
  asleep (world_of (run n (main argc argv) (start s))) = Z.of_nat (slept n)
  /\ asleep (world_of (run n (main argc argv) (start s)))
     <= Z.of_nat (length (firstn 5 (stdout (run n (main argc argv) (start s)))))
     <= asleep (world_of (run n (main argc argv) (start s))) + 1
  /\ asleep (world_of (run n (main argc argv) (start s))) <= 5.
Proof.
  change (start s) with (at_bol s [] 0).
  rewrite main_asleep_from, main_stdout_from. cbn [app Z.add].
  assert (B : (slept n <= counted n <= S (slept n) /\ counted n <= 5
               /\ (counted n < 5 -> echoed_turns n = 0))%nat).
  { destruct (Nat.lt_ge_cases n 20) as [H|H].
    - destruct (run_main_early_world n s [] 0 H) as (_ & _ & _ & _ & _ & B & T).
      unfold counted in *. lia.
    - replace n with (20 + (n - 20))%nat by lia.
      rewrite counted_late, slept_late. lia. }
  destruct B as (B1 & B2 & B3).
  assert (L : length (firstn 5 (firstn (counted n) startup_lines
                                ++ echo_prefix (echoed_turns n) (readable s)
                                               Indeterminate (spins s)))
              = counted n).
  { destruct (Nat.eq_dec (counted n) 5) as [E|E].
    - rewrite E. reflexivity.
    - rewrite B3 by lia. cbn [echo_prefix]. rewrite app_nil_r.
      rewrite !length_firstn. cbn [startup_lines length]. lia. }
  rewrite L. unfold slept in *. lia.
Qed.

(** X3.  White space in the input counts for nothing: two inputs with the
    same characters other than white space, in the same order, give the
    same output at every step. *)
Theorem white_space_insignificant inp1 inp2 cl n :
  filter nonspace inp1 = filter nonspace inp2 ->
  stdout (run n (main argc argv) (boot inp1 cl))
  = stdout (run n (main argc argv) (boot inp2 cl)).
Proof.
  intros H.
  change (boot inp1 cl) with (at_bol (fresh inp1 cl) [] 0).
  change (boot inp2 cl) with (at_bol (fresh inp2 cl) [] 0).
  rewrite !main_stdout_from.
  change (readable (fresh inp1 cl)) with (filter nonspace inp1).
  change (readable (fresh inp2 cl)) with (filter nonspace inp2).
  rewrite H. reflexivity.
Qed.

(** X4.  On an open stream what comes later in the input only adds to the
    output: at every step the output for an input is the beginning of the
    output for that input with more behind it. *)
Theorem later_input_only_appends inp more n :
  exists suf,
    stdout (run n (main argc argv) (boot (inp ++ more) false))
    = stdout (run n (main argc argv) (boot inp false)) ++ suf.
Proof.
  change (boot (inp ++ more) false) with (at_bol (fresh (inp ++ more) false) [] 0).
  change (boot inp false) with (at_bol (fresh inp false) [] 0).
  rewrite !main_stdout_from.
  change (readable (fresh (inp ++ more) false)) with (filter nonspace (inp ++ more)).
  change (readable (fresh inp false)) with (filter nonspace inp).
  rewrite filter_app.
  destruct (echo_prefix_app (echoed_turns n) (filter nonspace inp)
                            (filter nonspace more) Indeterminate) as (suf & E).
  exists suf. cbn [app spins fresh closed good eofbit failbit badbit negb andb orb].
  rewrite E, app_assoc. reflexivity.
Qed.

(** X5.  A character shown by a line of the output is a character of the
    input, and is not white space. *)
Theorem echoed_characters_come_from_input inp cl n c :
  In (echo_line (Char c)) (stdout (run n (main argc argv) (boot inp cl))) ->
  In c inp /\ isspace c = false.
Proof.
  change (boot inp cl) with (at_bol (fresh inp cl) [] 0).
  rewrite main_stdout_from. cbn [app]. intros H.
  apply in_app_or in H. destruct H as [H|H].
  - apply in_firstn in H.
    pose proof startup_line_not_echo as F. rewrite Forall_forall in F.
    destruct (F _ H). exists (Char c). reflexivity.
  - apply in_echo_prefix in H. destruct H as [H|(c' & E & I)]; [discriminate H|].
    injection E as <-.
    change (readable (fresh inp cl)) with (filter nonspace inp) in I.
    apply filter_In in I. destruct I as [I N]. split; [exact I|].
    unfold nonspace in N. destruct (isspace c); [discriminate N | reflexivity].
Qed.

(** X6.  A line shows an indeterminate value only if the first extraction
    has failed: with a first character stored, the variable is never
    written out indeterminate. *)
Theorem indeterminate_only_after_failed_first_read s n :
  In (echo_line Indeterminate) (stdout (run n (main argc argv) (start s))) ->
  exists s', extract s = Failed s'.
Proof.
  change (start s) with (at_bol s [] 0).
  rewrite main_stdout_from. cbn [app]. intros H.
  apply in_app_or in H. destruct H as [H|H].
  - apply in_firstn in H.
    pose proof startup_line_not_echo as F. rewrite Forall_forall in F.
    destruct (F _ H). exists Indeterminate. reflexivity.
  - apply indeterminate_in_echo_prefix in H. destruct H as (_ & R & Sp).
    pose proof (extract_cases s) as X.
    destruct (extract s) as [c s'|s'|s'].
    + destruct X as (X & _). rewrite R in X. discriminate X.
    + exists s'. reflexivity.
    + destruct X as (_ & X). rewrite Sp in X. discriminate X.
Qed.

(** X7.  On an open stream with N characters other than white space the
    process is executing for 20 + 5 N steps, and suspended in a read from
    then on. *)
Theorem waits_once_input_is_used_up inp n :
  running (run n (main argc argv) (boot inp false))
  = (n <=? 20 + 5 * length (filter nonspace inp))%nat.
Proof.
  destruct (Nat.leb_spec n (20 + 5 * length (filter nonspace inp))) as [H|H].
  - destruct (main_reads argc argv inp false (filter nonspace inp) [] 0%nat
                (eq_sym (app_nil_r _)))
      as (p & rest & _ & _ & _ & E).
    rewrite Nat.add_0_r in E. cbn [run of_echo] in E.
    pose proof (main_never_exits argc argv n (fresh inp false) [] 0) as X.
    change (at_bol (fresh inp false) [] 0) with (boot inp false) in X.
    destruct (run n (main argc argv) (boot inp false)) as [r w m|w|w] eqn:R;
      [discriminate X | | reflexivity].
    apply (run_waiting_more n _ _ _ (20 + 5 * length (filter nonspace inp) - n)) in R.
    replace (n + (20 + 5 * length (filter nonspace inp) - n))%nat
      with (20 + 5 * length (filter nonspace inp))%nat in R by lia.
    rewrite E in R. discriminate R.
  - replace n with (20 + (5 * length (filter nonspace inp)
                          + S (n - 21 - 5 * length (filter nonspace inp))))%nat by lia.
    rewrite main_waits. reflexivity.
Qed.

(** X8.  The count does not touch standard input: through the first
    twenty steps the stream is as it was at start, so that nothing typed
    during the count is lost. *)
Theorem count_leaves_stdin_alone s n :
  (n <= 20)%nat ->
  cin (world_of (run n (main argc argv) (start s))) = s.
Proof.
  intros H. change (start s) with (at_bol s [] 0).
  destruct (Nat.eq_dec n 20) as [->|N].
  - change 20%nat with (20 + 0)%nat. rewrite run_main. reflexivity.
  - destruct (run_main_early_world n s [] 0) as (w & E & C & _); [lia|].
    rewrite E. exact C.
Qed.

(** X9.  The number of lines written after [n] steps: those of the count,
    and one for each turn of the echo loop so far; on an open stream, one
    for each character at most; on a stream that is closed or not good,
    without bound. *)
Theorem number_of_lines s n :
  length (stdout (run n (main argc argv) (start s)))
  = (counted n
     + if spins s then echoed_turns n
       else Nat.min (echoed_turns n) (length (readable s)))%nat.
Proof.
  change (start s) with (at_bol s [] 0).
  rewrite main_stdout_from. cbn [app].
  rewrite length_app, length_firstn, length_echo_prefix.
  cbn [startup_lines length]. unfold counted. lia.
Qed.





End Output.

(** ** Concrete runs *)

Example run_ab_c_d :
  stdout (run 100 (main 1 []) (boot (chars "ab  c d") false))
  = [text "0"; text "1"; text "2"; text "3"; text "4";
     text "a = a"; text "a = b"; text "a = c"; text "a = d"].
Proof. reflexivity. Qed.

Example run_closed_blank :
  stdout (run 30 (main 1 []) (boot (chars "  ") true))
  = startup_lines ++ [echo_line Indeterminate; echo_line Indeterminate].
Proof. reflexivity. Qed.

Example tokens_example :
  tokens (chars " hi  yo ") = [chars "hi"; chars "yo"].
Proof. reflexivity. Qed.

(** C1, as the specification has it, fails on the input [ab]: one token,
    two echo lines. *)
Lemma one_echo_per_token_fails : ~ one_echo_per_token (chars "ab").
Proof.
  intros H.
  specialize (H 1 [] 31%nat
                (at_bol (fresh [] false)
                        (startup_lines ++ [text "a = a"; text "a = b"]) 5)
                eq_refl).
  discriminate H.
Qed.

(** C1, as amended, on the input [hi yo]: two tokens, four echo lines. *)
Lemma one_echo_per_token_character_witness :
  run 41 (main 1 []) (boot (chars "hi yo") false)
  = Waiting (at_bol (fresh [] false)
                    (startup_lines
                     ++ [text "a = h"; text "a = i"; text "a = y"; text "a = o"]) 5)
  /\ echoed (at_bol (fresh [] false)
                    (startup_lines
                     ++ [text "a = h"; text "a = i"; text "a = y"; text "a = o"]) 5)
     = flat_map echoes (tokens (chars "hi yo")).
Proof.
  split; [reflexivity|].
  apply (one_echo_per_token_character 1 [] (chars "hi yo") 41). reflexivity.
Defined.

(** C5 on the closed input [x y], after the second turn. *)
Lemma echo_shows_last_read_witness :
  run (20 + 5 * 2) (main 1 []) (boot (chars "x y") true)
  = Running (at_bol (fresh [] true) (startup_lines ++ [text "a = x"; text "a = y"]) 5)
  /\ exists p,
      chars "x y"
      = p ++ buf (cin (at_bol (fresh [] true)
                              (startup_lines ++ [text "a = x"; text "a = y"]) 5))
      /\ last (lines (cout (at_bol (fresh [] true)
                                   (startup_lines ++ [text "a = x"; text "a = y"]) 5)))
              []
         = echo_line (last (map Char (filter nonspace p)) Indeterminate).
Proof.
  split; [reflexivity|].
  apply (echo_shows_last_read 1 [] (chars "x y") true 1). reflexivity.
Defined.

(** C6 for a turn at end-of-file, [a] holding [x]. *)
Lemma echo_turn_unchecked_witness :
  returned (extract at_eof) = Some (None, at_eof)
  /\ (run (5 + 0) (echo (Char "x")) (at_bol at_eof [] 0)
      = run 0 (echo (store (Char "x") None))
            (at_bol at_eof ([] ++ [echo_line (store (Char "x") None)]) 0)
      /\ ((exists c, @None ascii = Some c) \/ (@None ascii = None /\ good at_eof = false))).
Proof.
  split; [reflexivity|].
  apply (echo_turn_unchecked (Char "x") at_eof [] 0 0 None at_eof). reflexivity.
Defined.

(** C9 on the closed input [x]. *)
Lemma echo_spins_at_end_witness :
  ends (fresh (chars "x") true)
  /\ ((forall n, exists w,
          run n (main 1 []) (start (fresh (chars "x") true)) = Running w)
      /\ (forall k, exists w,
            run (20 + 5 * (length (readable (fresh (chars "x") true)) + S k))
                (main 1 []) (start (fresh (chars "x") true))
            = Running w
            /\ lines (cout w) =
               startup_lines ++ echoes (readable (fresh (chars "x") true))
               ++ repeat (echo_line (last (map Char (readable (fresh (chars "x") true)))
                                          Indeterminate)) (S k)
            /\ good (cin w) = false
            /\ extract (cin w) = Failed (cin w))).
Proof.
  split; [left; reflexivity|].
  apply (echo_spins_at_end 1 [] (fresh (chars "x") true)). left. reflexivity.
Defined.

(** C10 on a closed, empty input. *)
Lemma first_echo_indeterminate_witness :
  extract (fresh [] true) = Failed at_eof
  /\ (nth 5 (stdout (run (24 + 0) (main 1 []) (start (fresh [] true)))) []
      = echo_line Indeterminate
      /\ forall c, echo_line Indeterminate <> echo_line (Char c)).
Proof.
  split; [reflexivity|].
  apply (first_echo_indeterminate 1 [] (fresh [] true) at_eof 0). reflexivity.
Defined.

(** X3 on the closed inputs [a b] and [ ab  ]. *)
Lemma white_space_insignificant_witness :
  filter nonspace (chars "a b") = filter nonspace (chars " ab  ")
  /\ stdout (run 40 (main 1 []) (boot (chars "a b") true))
     = stdout (run 40 (main 1 []) (boot (chars " ab  ") true)).
Proof.
  split; [reflexivity|].
  apply (white_space_insignificant 1 [] (chars "a b") (chars " ab  ") true 40).
  reflexivity.
Defined.

(** X5 for the second echo line of the input [a b]. *)
Lemma echoed_characters_come_from_input_witness :
  In (echo_line (Char "b"))
     (stdout (run 30 (main 1 []) (boot (chars "a b") false)))
  /\ (In "b"%char (chars "a b") /\ isspace "b" = false).
Proof.
  assert (H : In (echo_line (Char "b"))
                 (stdout (run 30 (main 1 []) (boot (chars "a b") false))))
    by (vm_compute; do 6 right; left; reflexivity).
  split; [exact H|].
  exact (echoed_characters_come_from_input 1 [] (chars "a b") false 30 "b" H).
Defined.

(** X6 on a closed, empty input. *)
Lemma indeterminate_only_after_failed_first_read_witness :
  In (echo_line Indeterminate)
     (stdout (run 24 (main 1 []) (start (fresh [] true))))
  /\ exists s', extract (fresh [] true) = Failed s'.
Proof.
  assert (H : In (echo_line Indeterminate)
                 (stdout (run 24 (main 1 []) (start (fresh [] true)))))
    by (vm_compute; do 5 right; left; reflexivity).
  split; [exact H|].
  exact (indeterminate_only_after_failed_first_read 1 [] (fresh [] true) 24 H).
Defined.

(** X8 at the last step of the count. *)
Lemma count_leaves_stdin_alone_witness :
  (20 <= 20)%nat
  /\ cin (world_of (run 20 (main 1 []) (start (fresh (chars "x") false))))
     = fresh (chars "x") false.
Proof.
  split; [lia|].
  apply (count_leaves_stdin_alone 1 [] (fresh (chars "x") false) 20). lia.
Defined.

(** C5, as the specification has it, fails on a closed, empty input: the
    first echo line shows no character that was read. *)
Lemma shows_read_character_fails : ~ shows_read_character [] true.
Proof.
  intros H.
  destruct (H 1 [] 0%nat
              (at_bol at_eof (startup_lines ++ [echo_line Indeterminate]) 5)
              eq_refl)
    as (p & c & _ & _ & E).
  cbn in E. discriminate E.
Qed.


